(** * maction: matchable action creators

    A shallow embedding of the two source files of the library, the current
    [src/index.ts] and its older variant, over a small model of the JavaScript
    values, function objects and effects that the code touches:

    - [createPrefix] / [withPrefix]: a template literal of two strings;
    - [createMaction] / [maction]: [Object.assign] of a [matches] arrow
      function onto the action creator it is given;
    - [matchableReducerFactory] / [matchedReducerFactory]: the curried
      builder that hands its reducer back.

    Function objects live in a store and are named by reference, since
    [Object.assign] updates its target in place. *)

From Stdlib Require Import ZArith.
From stdpp Require Import base option list gmap strings.

(** ** Values *)

(** A reference to a function object. *)
Abbreviation loc := positive.

(** The JavaScript values that can sit in a field of an action or in a
    property of a function object. Numbers are cut down to the integers and
    [NaN], which is enough to show where [===] is not reflexive. *)
Inductive value :=
  | VUndefined
  | VNull
  | VBool (b : bool)
  | VNum (n : Z)
  | VNaN
  | VStr (s : string)
  | VFun (l : loc).

#[global] Instance value_eq_dec : EqDecision value.
Proof. solve_decision. Defined.

(** [x === y] *)
Definition strict_eq (x y : value) : bool :=
  match x, y with
  | VUndefined, VUndefined => true
  | VNull, VNull => true
  | VBool a, VBool b => bool_decide (a = b)
  | VNum a, VNum b => bool_decide (a = b)
  | VStr a, VStr b => bool_decide (a = b)
  | VFun a, VFun b => bool_decide (a = b)
  | _, _ => false
  end.

(** [AnyAction]: an open record of fields. *)
Abbreviation AnyAction := (gmap string value).

(** [o.k] on a plain record: a missing field reads as [undefined]. *)
Definition get_field (o : AnyAction) (k : string) : value :=
  default VUndefined (o !! k).

(** ** Template literals *)

(** A template literal whose literal chunks are all empty and whose
    substitutions are strings: the substitutions, joined. *)
Fixpoint template (substitutions : list string) : string :=
  match substitutions with
  | [] => ""
  | s :: rest => s +:+ template rest
  end.

(** ** Effects *)

Section Runtime.

(** The state of the application, which an action creator may read and write. *)
Context {S : Type}.

(** How a call of application code ends: normally with a result, or by
    throwing a value. The state reached is kept in both cases. *)
Inductive completion (A : Type) :=
  | Normal (a : A) (σ : S)
  | Throw (e : value) (σ : S).
#[global] Arguments Normal {A} a σ.
#[global] Arguments Throw {A} e σ.

(** [ActionCreatorFn = (...args: never[]) => AnyAction & { type: string }] *)
Definition ActionCreatorFn := list value → S → completion AnyAction.

(** [SecondaryReducer<State, ActionCreator>] *)
Definition SecondaryReducer (State : Type) :=
  State → AnyAction → S → completion State.

(** The code of a function object. *)
Inductive code :=
  | ActionCreator (f : ActionCreatorFn)
    (** a function of the application *)
  | MatchesArrow (actionCreator : loc).
    (** the arrow function [(action) => action.type === actionCreator().type],
        closed over the parameter [actionCreator] of the wrapper *)

(** A function object: what it does when called, and its own properties. *)
Record fobj := FObj { fcode : code; fprops : gmap string value }.

(** The world: application state, store of function objects, and the record of
    every call of an action creator made so far (most recent last). *)
Record world := World {
  app : S;
  heap : gmap loc fobj;
  calls : list (loc * list value)
}.

(** How a computation of the library ends. [Wrong] stands for the
    configurations that the static types rule out: a reference to nothing, or
    a call through a value of the wrong kind. *)
Inductive outcome (A : Type) :=
  | Returned (a : A) (w : world)
  | Thrown (e : value) (w : world)
  | Wrong.
#[global] Arguments Returned {A} a w.
#[global] Arguments Thrown {A} e w.
#[global] Arguments Wrong {A}.

Definition M (A : Type) := world → outcome A.

Definition ret {A} (a : A) : M A := λ w, Returned a w.

Definition bind {A B} (m : M A) (k : A → M B) : M B :=
  λ w, match m w with
       | Returned a w' => k a w'
       | Thrown e w' => Thrown e w'
       | Wrong => Wrong
       end.

Definition wrong {A} : M A := λ _, Wrong.

(** Runs application code on the application state of the world. *)
Definition lift {A} (c : S → completion A) : M A :=
  λ w, match c (app w) with
       | Normal a σ => Returned a (World σ (heap w) (calls w))
       | Throw e σ => Thrown e (World σ (heap w) (calls w))
       end.

Definition lookup_fobj (l : loc) : M fobj :=
  λ w, match heap w !! l with
       | Some o => Returned o w
       | None => Wrong
       end.

Definition record_call (l : loc) (args : list value) : M unit :=
  λ w, Returned () (World (app w) (heap w) (calls w ++ [(l, args)])).

(** Evaluating a function expression: a new function object with no
    properties of its own, at an address not in use. *)
Definition new_function (c : code) : M loc :=
  λ w, let k := fresh (dom (heap w)) in
       Returned k (World (app w) (<[k := FObj c ∅]> (heap w)) (calls w)).

(** [Object.assign(target, source)] for a function object [target] and an
    object literal [source]: every property of [source] is set on [target],
    and [target] itself is the result. Function objects are ordinary ones:
    extensible, with plain data properties. *)
Definition Object_assign (target : loc) (source : gmap string value) : M loc :=
  λ w, match heap w !! target with
       | Some o =>
           Returned target
             (World (app w)
                    (<[target := FObj (fcode o) (source ∪ fprops o)]> (heap w))
                    (calls w))
       | None => Wrong
       end.

End Runtime.

#[global] Arguments completion : clear implicits.
#[global] Arguments ActionCreatorFn : clear implicits.
#[global] Arguments SecondaryReducer : clear implicits.
#[global] Arguments code : clear implicits.
#[global] Arguments fobj : clear implicits.
#[global] Arguments world : clear implicits.
#[global] Arguments outcome : clear implicits.
#[global] Arguments M : clear implicits.

Notation "x <- m ;; k" := (bind m (λ x, k))
  (at level 100, m at next level, right associativity, only parsing).

Section Calls.

Context {S : Type}.

(** [f(...args)] for a reference [f] to an action creator: the call is put on
    record, then the function runs on the application state. *)
Definition call_creator (f : loc) (args : list value) : M S AnyAction :=
  o <- lookup_fobj f ;;
  match fcode o with
  | ActionCreator body => _ <- record_call f args ;; lift (body args)
  | MatchesArrow _ => wrong
  end.

(** [m.matches(action)] for a reference [m] to a function object: the property
    [matches] of [m] is read and the arrow function it refers to is called.
    [arrow] is the body of that arrow function, given its captured variable. *)
Definition call_matches (arrow : loc → AnyAction → M S bool)
    (m : loc) (action : AnyAction) : M S bool :=
  o <- lookup_fobj m ;;
  match fprops o !! "matches" with
  | Some (VFun k) =>
      g <- lookup_fobj k ;;
      match fcode g with
      | MatchesArrow actionCreator => arrow actionCreator action
      | ActionCreator _ => wrong
      end
  | _ => wrong
  end.

(** What a caller can see of an outcome: the result or the exception, the
    application state and the calls made, but not the store. *)
Definition visible {A} (o : outcome S A)
    : option ((A + value) * S * list (loc * list value)) :=
  match o with
  | Returned a w => Some (inl a, app w, calls w)
  | Thrown e w => Some (inr e, app w, calls w)
  | Wrong => None
  end.

(** [m] is a matchable action creator in [w]: a function object that runs
    [f] when called and whose property [matches] refers to an arrow function
    closed over [m] itself. *)
Definition is_maction (w : world S) (m : loc) (f : ActionCreatorFn S) : Prop :=
  ∃ ps k qs,
    heap w !! m = Some (FObj (ActionCreator f) ps) ∧
    ps !! "matches" = Some (VFun k) ∧
    heap w !! k = Some (FObj (MatchesArrow m) qs).

(** The application state in which a call of application code ends. *)
Definition state_after {A} (c : completion S A) : S :=
  match c with
  | Normal _ σ => σ
  | Throw _ σ => σ
  end.

End Calls.

(** ** [src/index.ts] *)

Module Index.

Definition createPrefix (prefix : string) : string → string :=
  λ actionType, template [prefix; actionType].

Section WithState.

Context {S : Type}.

(** The arrow function [matches] of [createMaction], for the value
    [actionCreator] of the variable it closes over. The left operand of [===]
    is read first, then the action creator is called with no arguments. *)
Definition matches (actionCreator : loc) (action : AnyAction) : M S bool :=
  let type := get_field action "type" in
  reference <- call_creator actionCreator [] ;;
  ret (strict_eq type (get_field reference "type")).

Definition createMaction (actionCreator : loc) : M S loc :=
  k <- new_function (MatchesArrow actionCreator) ;;
  Object_assign actionCreator {[ "matches" := VFun k ]}.

Definition reduceForActionBuilder {State : Type} (_ : unit)
    : loc → SecondaryReducer S State → SecondaryReducer S State :=
  λ actionCreator reduce, reduce.

Definition matchableReducerFactory {State : Type} (_ : unit)
    : loc → SecondaryReducer S State → SecondaryReducer S State :=
  reduceForActionBuilder (State := State) ().

(** [createMaction(c).matches(a)] *)
Definition createMaction_matches (c : loc) (a : AnyAction) : M S bool :=
  m <- createMaction c ;; call_matches matches m a.

(** [createMaction(c)(...xs)] *)
Definition createMaction_call (c : loc) (xs : list value) : M S AnyAction :=
  m <- createMaction c ;; call_creator m xs.

(** [m.matches(a)] for each [a] of a list in turn, as a reducer that receives
    one action after the other does. *)
Fixpoint matches_in_turn (m : loc) (candidates : list AnyAction)
    : M S (list bool) :=
  match candidates with
  | [] => ret []
  | a :: rest =>
      b <- call_matches matches m a ;;
      bs <- matches_in_turn m rest ;;
      ret (b :: bs)
  end.

(** Two readings of the wrapper that the proofs below put to the test:
    that its result is a value other than its argument, and that the function
    object it is given is the same after the call as before. *)
Definition returns_new_value (w : world S) (c : loc) : Prop :=
  ∀ m w', createMaction c w = Returned m w' → m ≠ c.

Definition leaves_input_unmodified (w : world S) (c : loc) : Prop :=
  ∀ m w', createMaction c w = Returned m w' → heap w' !! c = heap w !! c.

(** [const m = createMaction(c)], then [m.matches(a)] for each [a] in turn. *)
Definition createMaction_matches_in_turn (c : loc)
    (candidates : list AnyAction) : M S (list bool) :=
  m <- createMaction c ;; matches_in_turn m candidates.

End WithState.

End Index.

(** ** The older variant of the library *)

Module Part000.

Definition withPrefix (prefix : string) : string → string :=
  λ actionType, template [prefix; actionType].

Section WithState.

Context {S : Type}.

(** The arrow function [matches] of [maction]. *)
Definition matches (actionCreator : loc) (action : AnyAction) : M S bool :=
  let type := get_field action "type" in
  reference <- call_creator actionCreator [] ;;
  ret (strict_eq type (get_field reference "type")).

Definition maction (actionCreator : loc) : M S loc :=
  k <- new_function (MatchesArrow actionCreator) ;;
  Object_assign actionCreator {[ "matches" := VFun k ]}.

Definition reduceSlice {State : Type} (_ : unit)
    : loc → SecondaryReducer S State → SecondaryReducer S State :=
  λ actionCreator reduce, reduce.

(** [maction(c).matches(a)] *)
Definition maction_matches (c : loc) (a : AnyAction) : M S bool :=
  m <- maction c ;; call_matches matches m a.

(** The object that [matchedReducerFactory] returns. *)
Record ReducerFactory (State : Type) := {
  reduceForAction : loc → SecondaryReducer S State → SecondaryReducer S State
}.
#[global] Arguments reduceForAction {State} _.

Definition matchedReducerFactory {State : Type} (_ : unit)
    : ReducerFactory State :=
  {| reduceForAction := reduceSlice (State := State) () |}.

End WithState.

End Part000.

(** ** Sample applications *)

Module Samples.

(** [(amount) => ({ type: "INCREMENT", amount })] *)
Definition increment {S : Type} : ActionCreatorFn S :=
  λ args σ,
    Normal {[ "type" := VStr "INCREMENT";
              "amount" := default VUndefined (args !! 0%nat) ]} σ.

(** [() => { ticks += 1; return { type: "TICK" } }], the application state
    being the counter [ticks]. *)
Definition tick : ActionCreatorFn nat :=
  λ _ ticks, Normal {[ "type" := VStr "TICK" ]} (ticks + 1)%nat.

(** [(amount) => { seen += 1; if (amount === undefined) throw "amount is
    required"; return { type: "SET", amount } }] *)
Definition set_amount : ActionCreatorFn nat :=
  λ args seen,
    match default VUndefined (args !! 0%nat) with
    | VUndefined => Throw (VStr "amount is required") (seen + 1)%nat
    | amount => Normal {[ "type" := VStr "SET"; "amount" := amount ]}
                       (seen + 1)%nat
    end.

(** A world with one function object, the action creator [f], at address 1. *)
Definition world_with {S : Type} (f : ActionCreatorFn S) (σ : S) : world S :=
  World σ {[ 1%positive := FObj (ActionCreator f) ∅ ]} [].

(** A world in which [tick], at address 1, has been wrapped and its matcher
    used once: the arrow function is at address 2, seven ticks have passed. *)
Definition ticking_world : world nat :=
  World 7%nat
    {[ 1%positive := FObj (ActionCreator tick)
                          {[ "matches" := VFun 2%positive ]};
       2%positive := FObj (MatchesArrow 1%positive) ∅ ]}
    [(1%positive, [])].

(** A world with two action creators, [f] at address 1 and [g] at address 2. *)
Definition world_with_two {S : Type} (f g : ActionCreatorFn S) (σ : S)
    : world S :=
  World σ {[ 1%positive := FObj (ActionCreator f) ∅;
             2%positive := FObj (ActionCreator g) ∅ ]} [].

(** [() => ({ type: createPrefix(prefix)(label) })] *)
Definition prefixed {S : Type} (prefix label : string) : ActionCreatorFn S :=
  λ _ σ, Normal {[ "type" := VStr (Index.createPrefix prefix label) ]} σ.

(** [{ type: "INCREMENT", amount: 5 }] *)
Definition increment_5 : AnyAction :=
  {[ "type" := VStr "INCREMENT"; "amount" := VNum 5 ]}.

(** [{ type: "INCREMENT" }] *)
Definition increment_bare : AnyAction := {[ "type" := VStr "INCREMENT" ]}.

(** [{ type: "DECREMENT" }] *)
Definition decrement : AnyAction := {[ "type" := VStr "DECREMENT" ]}.

(** [(state, action) => state + action.amount], on integer states. *)
Definition add_amount {S : Type} : SecondaryReducer S Z :=
  λ state action σ,
    match get_field action "amount" with
    | VNum n => Normal (state + n)%Z σ
    | _ => Throw (VStr "amount is not a number") σ
    end.

End Samples.

(** ** Wrapping more than once, and more than one creator *)

Module Programs.

Section WithState.

Context {S : Type}.

(** [createMaction(createMaction(c)).matches(a)] *)
Definition wrap_twice_matches (c : loc) (a : AnyAction) : M S bool :=
  m1 <- Index.createMaction c ;;
  m2 <- Index.createMaction m1 ;;
  call_matches Index.matches m2 a.

(** [const m1 = createMaction(c1); const m2 = createMaction(c2);
    m1.matches(m2(...xs))] *)
Definition cross_matches (c1 c2 : loc) (xs : list value) : M S bool :=
  m1 <- Index.createMaction c1 ;;
  m2 <- Index.createMaction c2 ;;
  a <- call_creator m2 xs ;;
  call_matches Index.matches m1 a.

(** [const m1 = createMaction(c1); createMaction(c2); m1.matches(a)] *)
Definition matches_after_other_wrap (c1 c2 : loc) (a : AnyAction)
    : M S bool :=
  m1 <- Index.createMaction c1 ;;
  _ <- Index.createMaction c2 ;;
  call_matches Index.matches m1 a.

End WithState.

End Programs.

(** ** The counter of the README *)

(** The README shows one reducer twice: first with an [enum] of action types
    and a [switch], then with matchable action creators. Both are embedded
    here. The state is an open record with a field [value]. The operators [+]
    and [-] of JavaScript on two values are not modelled: they are taken as
    they come. *)
Module Readme.

Abbreviation State := (gmap string value).

Section Actions.

Context {S : Type}.

(** [(value: number) => ({ type: "INCREMENT", value })] *)
Definition incrementAction : ActionCreatorFn S :=
  λ args σ,
    Normal {[ "type" := VStr "INCREMENT";
              "value" := default VUndefined (args !! 0%nat) ]} σ.

(** [(value: number) => ({ type: "DECREMENT", value })] *)
Definition decrementAction : ActionCreatorFn S :=
  λ args σ,
    Normal {[ "type" := VStr "DECREMENT";
              "value" := default VUndefined (args !! 0%nat) ]} σ.

(** [() => ({ type: "RESET" })] *)
Definition resetAction : ActionCreatorFn S :=
  λ _ σ, Normal {[ "type" := VStr "RESET" ]} σ.

End Actions.

Section Reducers.

Context {S : Type}.
Variables plus minus : value → value → value.

(** [(state, action) => ({ ...state, value: state.value + action.value })] *)
Definition add_value : SecondaryReducer S State :=
  λ state action σ,
    Normal (<["value" := plus (get_field state "value")
                              (get_field action "value")]> state) σ.

(** [(state, action) => ({ ...state, value: state.value - action.value })] *)
Definition subtract_value : SecondaryReducer S State :=
  λ state action σ,
    Normal (<["value" := minus (get_field state "value")
                               (get_field action "value")]> state) σ.

End Reducers.

(** The first version: [ActionType], plain action creators, a [switch]. *)
Module WithSwitch.

Section Counter.

Context {S : Type}.
Variables plus minus : value → value → value.

Definition incrementReducer : SecondaryReducer S State := add_value plus.

Definition decrementReducer : SecondaryReducer S State := subtract_value minus.

(** [switch (action.type)]: the cases are compared with [===], in order;
    [DECREMENT] has no body of its own and falls through to [RESET]. *)
Definition reducer (state : State) (action : AnyAction)
    : S → completion S State :=
  let type := get_field action "type" in
  if strict_eq type (VStr "INCREMENT") then incrementReducer state action
  else if strict_eq type (VStr "DECREMENT") || strict_eq type (VStr "RESET")
  then λ σ, Normal (<["value" := VNum 0]> state) σ
  else λ σ, Normal state σ.

End Counter.

End WithSwitch.

(** The second version, with [createMaction] and
    [matchableReducerFactory]. *)
Module WithMaction.

Section Counter.

Context {S : Type}.
Variables plus minus : value → value → value.

(** One of the three [export const x = createMaction(<arrow function>)]: the
    arrow function is evaluated, then wrapped. *)
Definition define (f : ActionCreatorFn S) : M S loc :=
  c <- new_function (ActionCreator f) ;;
  Index.createMaction c.

(** The three definitions of [actions.ts], in order. *)
Definition actions : M S (loc * loc * loc) :=
  inc <- define incrementAction ;;
  dec <- define decrementAction ;;
  reset <- define resetAction ;;
  ret (inc, dec, reset).

Definition reduceForAction
    : loc → SecondaryReducer S State → SecondaryReducer S State :=
  Index.matchableReducerFactory ().

Definition incrementReducer (incrementAction : loc)
    : SecondaryReducer S State :=
  reduceForAction incrementAction (add_value plus).

Definition decrementReducer (decrementAction : loc)
    : SecondaryReducer S State :=
  reduceForAction decrementAction (subtract_value minus).

Definition reducer (incrementAction decrementAction resetAction : loc)
    (state : State) (action : AnyAction) : M S State :=
  is_increment <- call_matches Index.matches incrementAction action ;;
  if is_increment
  then lift (incrementReducer incrementAction state action)
  else
    is_decrement <- call_matches Index.matches decrementAction action ;;
    if is_decrement
    then lift (decrementReducer decrementAction state action)
    else
      is_reset <- call_matches Index.matches resetAction action ;;
      if is_reset then ret (<["value" := VNum 0]> state) else ret state.

(** The two modules loaded, then one action reduced. *)
Definition dispatch (state : State) (action : AnyAction) : M S State :=
  ms <- actions ;;
  let '(inc, dec, reset) := ms in
  reducer inc dec reset state action.

End Counter.

End WithMaction.

Section Expected.

Variables plus minus : value → value → value.

(** What [WithMaction.reducer] hands back, by the [type] of the action. *)
Definition reduced (state : State) (action : AnyAction) : State :=
  let type := get_field action "type" in
  if bool_decide (type = VStr "INCREMENT")
  then <["value" := plus (get_field state "value")
                         (get_field action "value")]> state
  else if bool_decide (type = VStr "DECREMENT")
  then <["value" := minus (get_field state "value")
                          (get_field action "value")]> state
  else if bool_decide (type = VStr "RESET")
  then <["value" := VNum 0]> state
  else state.

(** How many matchers [WithMaction.reducer] tries on an action. *)
Definition tried (action : AnyAction) : nat :=
  let type := get_field action "type" in
  if bool_decide (type = VStr "INCREMENT") then 1
  else if bool_decide (type = VStr "DECREMENT") then 2
  else 3.

End Expected.

(** Addition and subtraction on the integers, [NaN] otherwise. *)
Definition plus_int (x y : value) : value :=
  match x, y with VNum a, VNum b => VNum (a + b) | _, _ => VNaN end.

Definition minus_int (x y : value) : value :=
  match x, y with VNum a, VNum b => VNum (a - b) | _, _ => VNaN end.

End Readme.

(** ** Proof support *)

Ltac run :=
  unfold bind, ret, wrong, lift, lookup_fobj, record_call, new_function,
    Object_assign; simpl.

(** * Results *)

(** ** Strings *)

Lemma append_cons (a : Ascii.ascii) (s t : string) :
  String a s +:+ t = String a (s +:+ t).
Proof. reflexivity. Qed.

Lemma append_empty_r (s : string) : s +:+ "" = s.
Proof. induction s as [|a s IH]; [done | by rewrite append_cons, IH]. Qed.

Lemma append_assoc (p q s : string) : (p +:+ q) +:+ s = p +:+ (q +:+ s).
Proof. induction p as [|a p IH]; [done | by rewrite !append_cons, IH]. Qed.

Lemma append_length (p s : string) :
  String.length (p +:+ s) = (String.length p + String.length s)%nat.
Proof.
  induction p as [|a p IH]; [done | rewrite append_cons; simpl; by rewrite IH].
Qed.

Lemma template_pair (p s : string) : template [p; s] = p +:+ s.
Proof. cbn [template]. by rewrite append_empty_r. Qed.

(** ** Strict equality *)

Lemma strict_eq_true (x y : value) : strict_eq x y = true → x = y.
Proof.
  destruct x, y; simpl; try discriminate; try done;
    intros H%bool_decide_eq_true; by subst.
Qed.

Lemma strict_eq_string (x : value) (t : string) :
  strict_eq x (VStr t) = bool_decide (x = VStr t).
Proof.
  destruct x as [| |b|n| |s|l]; simpl;
    try (symmetry; apply bool_decide_eq_false; discriminate).
  all: try reflexivity.
  apply bool_decide_ext. split; congruence.
Qed.

(** [===] is not reflexive. *)
Lemma strict_eq_NaN : strict_eq VNaN VNaN = false.
Proof. reflexivity. Qed.

(** ** The wrapper *)

Section Wrapper.

Context {S : Type}.
Implicit Types (w : world S) (f : ActionCreatorFn S) (c m : loc).
Implicit Types (a : AnyAction).

Lemma fresh_not_allocated w c o :
  heap w !! c = Some o → fresh (dom (heap w)) ≠ c.
Proof.
  intros Hc Heq. apply (is_fresh (dom (heap w))).
  rewrite Heq. apply elem_of_dom. eauto.
Qed.

(** What [createMaction] does to the store. *)
Lemma createMaction_runs w c o :
  heap w !! c = Some o →
  Index.createMaction c w =
    Returned c
      (World (app w)
         (<[c := FObj (fcode o)
                   (<["matches" := VFun (fresh (dom (heap w)))]> (fprops o))]>
            (<[fresh (dom (heap w)) := FObj (MatchesArrow c) ∅]> (heap w)))
         (calls w)).
Proof.
  intros Hc. pose proof (fresh_not_allocated w c o Hc) as Hk.
  unfold Index.createMaction. run.
  rewrite lookup_insert_ne by done. rewrite Hc.
  by rewrite <- insert_union_singleton_l.
Qed.

Lemma createMaction_is_maction w c f ps :
  heap w !! c = Some (FObj (ActionCreator f) ps) →
  ∃ w1, Index.createMaction c w = Returned c w1 ∧
        app w1 = app w ∧ calls w1 = calls w ∧ is_maction w1 c f.
Proof.
  intros Hc. pose proof (fresh_not_allocated w c _ Hc) as Hk.
  eexists. split; [by apply createMaction_runs|]. simpl.
  split; [done|]. split; [done|].
  exists (<["matches" := VFun (fresh (dom (heap w)))]> ps),
    (fresh (dom (heap w))), ∅. simpl.
  split; [by rewrite lookup_insert_eq|].
  split; [by rewrite lookup_insert_eq|].
  rewrite lookup_insert_ne by done. by rewrite lookup_insert_eq.
Qed.

Lemma is_maction_heap w w' m f :
  heap w' = heap w → is_maction w m f → is_maction w' m f.
Proof. unfold is_maction. by intros ->. Qed.

(** One call of [m.matches]: one call of the action creator, with no
    arguments, whose result is compared and dropped. *)
Lemma matches_of_maction w m f a :
  is_maction w m f →
  call_matches Index.matches m a w =
    match f [] (app w) with
    | Normal r σ =>
        Returned (strict_eq (get_field a "type") (get_field r "type"))
                 (World σ (heap w) (calls w ++ [(m, [])]))
    | Throw e σ => Thrown e (World σ (heap w) (calls w ++ [(m, [])]))
    end.
Proof.
  intros (ps & k & qs & Hm & Hps & Hk).
  unfold call_matches, Index.matches, call_creator. run.
  rewrite Hm. simpl. rewrite Hps, Hk. simpl. rewrite Hm. simpl.
  by destruct (f [] (app w)).
Qed.

End Wrapper.

(** ** The two variants *)

Lemma withPrefix_createPrefix (p s : string) :
  Part000.withPrefix p s = Index.createPrefix p s.
Proof. reflexivity. Qed.

Lemma maction_createMaction {S : Type} (c : loc) (w : world S) :
  Part000.maction c w = Index.createMaction c w.
Proof. reflexivity. Qed.

Lemma old_matches_new_matches {S : Type} (c : loc) (a : AnyAction)
    (w : world S) :
  Part000.matches c a w = Index.matches c a w.
Proof. reflexivity. Qed.

Lemma maction_matches_createMaction_matches {S : Type} (c : loc)
    (a : AnyAction) (w : world S) :
  Part000.maction_matches c a w = Index.createMaction_matches c a w.
Proof.
  unfold Part000.maction_matches, Index.createMaction_matches, bind.
  rewrite maction_createMaction.
  by destruct (Index.createMaction c w) as [m w1| |].
Qed.

(** ** Matching *)

Section Matching.

Context {S : Type}.
Implicit Types (w : world S) (f : ActionCreatorFn S) (c m : loc).
Implicit Types (a b : AnyAction).

(** [createMaction(c).matches(a)], run: the store gains the arrow function,
    and the action creator is called once, with no arguments. *)
Lemma createMaction_matches_runs w c f ps a :
  heap w !! c = Some (FObj (ActionCreator f) ps) →
  ∃ h,
    Index.createMaction_matches c a w =
      match f [] (app w) with
      | Normal r σ =>
          Returned (strict_eq (get_field a "type") (get_field r "type"))
                   (World σ h (calls w ++ [(c, [])]))
      | Throw e σ => Thrown e (World σ h (calls w ++ [(c, [])]))
      end.
Proof.
  intros Hc.
  destruct (createMaction_is_maction w c f ps Hc)
    as (w1 & Hrun & Happ & Hcalls & Hm).
  exists (heap w1). unfold Index.createMaction_matches, bind.
  rewrite Hrun, (matches_of_maction w1 c f a Hm).
  by rewrite Happ, Hcalls.
Qed.

Lemma matches_reads_type_only (actionCreator : loc) a b :
  get_field a "type" = get_field b "type" →
  Index.matches (S := S) actionCreator a = Index.matches actionCreator b.
Proof. unfold Index.matches. by intros ->. Qed.

Lemma call_matches_reads_type_only m a b w :
  get_field a "type" = get_field b "type" →
  call_matches Index.matches m a w = call_matches Index.matches m b w.
Proof.
  intros Hab. unfold call_matches, bind.
  destruct (lookup_fobj m w) as [o w1| |]; try done.
  destruct (fprops o !! "matches") as [[| | | | | |k]|]; try done.
  destruct (lookup_fobj k w1) as [g w2| |]; try done.
  destruct (fcode g); [done|].
  by rewrite (matches_reads_type_only _ a b Hab).
Qed.

(** A run of calls of [m.matches], when the action creator always returns. *)
Lemma matches_in_turn_runs m f (candidates : list AnyAction) :
  (∀ σ, ∃ r σ', f [] σ = Normal r σ') →
  ∀ w, is_maction w m f →
  ∃ bs,
    Index.matches_in_turn m candidates w =
      Returned bs
        (World (Nat.iter (length candidates) (λ σ, state_after (f [] σ)) (app w))
               (heap w)
               (calls w ++ replicate (length candidates) (m, []))) ∧
    length bs = length candidates.
Proof.
  intros Htotal. induction candidates as [|a rest IH]; intros w Hm.
  - exists []. simpl. unfold ret. rewrite app_nil_r. by destruct w.
  - simpl. unfold bind at 1. rewrite (matches_of_maction w m f a Hm).
    destruct (Htotal (app w)) as (r & σ' & Hr). rewrite Hr.
    set (w1 := World σ' (heap w) (calls w ++ [(m, [])])).
    destruct (IH w1) as (bs & Hrest & Hlen).
    { by apply (is_maction_heap w). }
    unfold bind. rewrite Hrest. unfold ret.
    exists (strict_eq (get_field a "type") (get_field r "type") :: bs).
    split; [|simpl; by rewrite Hlen].
    f_equal. subst w1; simpl. f_equal.
    + replace σ' with (state_after (f [] (app w))) by (by rewrite Hr).
      apply (Nat.iter_swap _ _ (λ σ, state_after (f [] σ))).
    + by rewrite <- app_assoc.
Qed.

End Matching.

(** * The claims *)

(** C1. For an action creator [c] whose returned [type] is one and the same
    string for all argument lists, [createMaction(c).matches(a)] returns
    [true] when [a.type] equals [c().type] and [false] when it differs,
    whatever other fields [a] has or lacks; the older [maction] does the
    same, and every action that [c] builds, from any arguments, matches. *)
Theorem matches_decides_type {S : Type} (w : world S) (c : loc)
    (f : ActionCreatorFn S) (ps : gmap string value) (t : string)
    (r : AnyAction) (σ' : S) (a : AnyAction) :
  heap w !! c = Some (FObj (ActionCreator f) ps) →
  (∀ xs σ r1 σ1, f xs σ = Normal r1 σ1 → get_field r1 "type" = VStr t) →
  f [] (app w) = Normal r σ' →
  (∃ w',
     Index.createMaction_matches c a w =
       Returned (bool_decide (get_field a "type" = get_field r "type")) w' ∧
     app w' = σ') ∧
  Part000.maction_matches c a w = Index.createMaction_matches c a w ∧
  (∀ xs σ r1 σ1, f xs σ = Normal r1 σ1 →
     ∃ w', Index.createMaction_matches c r1 w = Returned true w').
Proof.
  intros Hc Htype Hr. split; [|split].
  - destruct (createMaction_matches_runs w c f ps a Hc) as [h ->].
    rewrite Hr, (Htype _ _ _ _ Hr), strict_eq_string. eauto.
  - apply maction_matches_createMaction_matches.
  - intros xs σ r1 σ1 Hr1.
    destruct (createMaction_matches_runs w c f ps r1 Hc) as [h ->].
    rewrite Hr, (Htype _ _ _ _ Hr), (Htype _ _ _ _ Hr1), strict_eq_string.
    rewrite bool_decide_eq_true_2 by done. eauto.
Qed.

Lemma matches_decides_type_witness :
  (∃ w',
     Index.createMaction_matches 1%positive Samples.decrement
       (Samples.world_with Samples.increment ()) =
       Returned
         (bool_decide
            (get_field Samples.decrement "type" =
             get_field ({[ "type" := VStr "INCREMENT";
                           "amount" := VUndefined ]} : AnyAction) "type"))
         w' ∧
     app w' = ()) ∧
  Part000.maction_matches 1%positive Samples.decrement
    (Samples.world_with Samples.increment ()) =
  Index.createMaction_matches 1%positive Samples.decrement
    (Samples.world_with Samples.increment ()) ∧
  (∀ xs (σ : ()) r1 σ1, Samples.increment xs σ = Normal r1 σ1 →
     ∃ w', Index.createMaction_matches 1%positive r1
             (Samples.world_with Samples.increment ()) = Returned true w').
Proof.
  apply (matches_decides_type (Samples.world_with Samples.increment ())
           1%positive Samples.increment ∅ "INCREMENT").
  - reflexivity.
  - intros xs σ r1 σ1 [= <- _]. reflexivity.
  - reflexivity.
Defined.

(** C2. [createPrefix(p)(s)] is [p] followed by [s], character for
    character: nothing is trimmed, escaped or rejected, so the length is the
    sum of the two lengths; the older [withPrefix] is the same function. *)
Theorem createPrefix_concatenates (p s : string) :
  Index.createPrefix p s = p +:+ s ∧
  Part000.withPrefix p s = p +:+ s ∧
  String.length (Index.createPrefix p s) =
    (String.length p + String.length s)%nat.
Proof.
  unfold Index.createPrefix, Part000.withPrefix.
  rewrite template_pair, append_length. done.
Qed.

(** C3. For every action creator [c] and argument list [xs], calling
    [createMaction(c)] with [xs] shows the caller what calling [c] with [xs]
    shows: the same action or the same exception, the same application state
    and the same call of [c] on record. *)
Theorem createMaction_is_transparent {S : Type} (w : world S) (c : loc)
    (f : ActionCreatorFn S) (ps : gmap string value) (xs : list value) :
  heap w !! c = Some (FObj (ActionCreator f) ps) →
  visible (Index.createMaction_call c xs w) = visible (call_creator c xs w) ∧
  visible (call_creator c xs w) =
    Some (match f xs (app w) with
          | Normal r σ => (inl r, σ, calls w ++ [(c, xs)])
          | Throw e σ => (inr e, σ, calls w ++ [(c, xs)])
          end).
Proof.
  intros Hc.
  assert (visible (call_creator c xs w) =
    Some (match f xs (app w) with
          | Normal r σ => (inl r, σ, calls w ++ [(c, xs)])
          | Throw e σ => (inr e, σ, calls w ++ [(c, xs)])
          end)) as Hplain.
  { unfold call_creator. run. rewrite Hc. simpl.
    by destruct (f xs (app w)). }
  split; [|done]. rewrite Hplain.
  unfold Index.createMaction_call, bind.
  rewrite (createMaction_runs w c _ Hc).
  unfold call_creator. run. rewrite lookup_insert_eq. simpl.
  by destruct (f xs (app w)).
Qed.

Lemma createMaction_is_transparent_witness :
  visible (Index.createMaction_call 1%positive [VNum 5]
             (Samples.world_with Samples.increment ())) =
    visible (call_creator 1%positive [VNum 5]
               (Samples.world_with Samples.increment ())) ∧
  visible (call_creator 1%positive [VNum 5]
             (Samples.world_with Samples.increment ())) =
    Some (match Samples.increment [VNum 5] () with
          | Normal r σ => (inl r, σ, [] ++ [(1%positive, [VNum 5])])
          | Throw e σ => (inr e, σ, [] ++ [(1%positive, [VNum 5])])
          end).
Proof.
  apply (createMaction_is_transparent
           (Samples.world_with Samples.increment ()) 1%positive
           Samples.increment ∅ [VNum 5]).
  reflexivity.
Defined.

(** C4. For every state type, matchable action creator [m] and reducer [fn],
    the pairing function of [matchableReducerFactory] hands back [fn] itself,
    so the reducer it returns does on every state and action what [fn]
    does. *)
Theorem matchableReducerFactory_returns_reducer {S State : Type} (m : loc)
    (fn : SecondaryReducer S State) :
  Index.matchableReducerFactory () m fn = fn ∧
  ∀ state action σ,
    Index.matchableReducerFactory () m fn state action σ = fn state action σ.
Proof. split; reflexivity. Qed.

(** C5. When the action creator [c] throws on a call with no arguments,
    [createMaction(c).matches(a)] throws the same value for every candidate
    [a], in the application state that the failed call left, after exactly
    that one call of [c]. *)
Theorem matches_propagates_throw {S : Type} (w : world S) (c : loc)
    (f : ActionCreatorFn S) (ps : gmap string value) (e : value) (σ' : S)
    (a : AnyAction) :
  heap w !! c = Some (FObj (ActionCreator f) ps) →
  f [] (app w) = Throw e σ' →
  ∃ w',
    Index.createMaction_matches c a w = Thrown e w' ∧
    app w' = σ' ∧ calls w' = calls w ++ [(c, [])].
Proof.
  intros Hc He.
  destruct (createMaction_matches_runs w c f ps a Hc) as [h ->].
  rewrite He. eauto.
Qed.

Lemma matches_propagates_throw_witness :
  ∃ w',
    Index.createMaction_matches 1%positive Samples.increment_5
      (Samples.world_with Samples.set_amount 0%nat) =
      Thrown (VStr "amount is required") w' ∧
    app w' = 1%nat ∧ calls w' = [] ++ [(1%positive, [])].
Proof.
  apply (matches_propagates_throw
           (Samples.world_with Samples.set_amount 0%nat) 1%positive
           Samples.set_amount ∅ (VStr "amount is required") 1%nat
           Samples.increment_5).
  - reflexivity.
  - reflexivity.
Defined.

(** C6. Each call of [createMaction(c).matches] calls [c] once, with no
    arguments, however that call ends, and nothing is kept from one call to
    the next: when [c] always returns and the matcher is tried on [n]
    candidates, [c] is called [n] times and its effect on the application
    state takes place [n] times. *)
Theorem matches_calls_creator_each_time {S : Type} (w : world S) (c : loc)
    (f : ActionCreatorFn S) (ps : gmap string value) :
  heap w !! c = Some (FObj (ActionCreator f) ps) →
  (∀ a,
     visible (Index.createMaction_matches c a w) =
       Some (match f [] (app w) with
             | Normal r σ =>
                 (inl (strict_eq (get_field a "type") (get_field r "type")),
                  σ, calls w ++ [(c, [])])
             | Throw e σ => (inr e, σ, calls w ++ [(c, [])])
             end)) ∧
  ((∀ σ, ∃ r σ', f [] σ = Normal r σ') →
   ∀ candidates : list AnyAction,
   ∃ bs w',
     Index.createMaction_matches_in_turn c candidates w = Returned bs w' ∧
     length bs = length candidates ∧
     calls w' = calls w ++ replicate (length candidates) (c, []) ∧
     app w' =
       Nat.iter (length candidates) (λ σ, state_after (f [] σ)) (app w)).
Proof.
  intros Hc. split.
  - intros a.
    destruct (createMaction_matches_runs w c f ps a Hc) as [h ->].
    by destruct (f [] (app w)).
  - intros Htotal candidates.
    destruct (createMaction_is_maction w c f ps Hc)
      as (w1 & Hrun & Happ & Hcalls & Hm).
    destruct (matches_in_turn_runs c f candidates Htotal w1 Hm)
      as (bs & Hturn & Hlen).
    exists bs. eexists.
    unfold Index.createMaction_matches_in_turn, bind. rewrite Hrun, Hturn.
    simpl. by rewrite Happ, Hcalls.
Qed.

Lemma matches_calls_creator_each_time_witness :
  visible (Index.createMaction_matches 1%positive Samples.decrement
             (Samples.world_with Samples.tick 0%nat)) =
    Some (inl false, 1%nat, [(1%positive, [])]) ∧
  ∃ bs w',
    Index.createMaction_matches_in_turn 1%positive
      [Samples.decrement; Samples.increment_5; Samples.increment_bare]
      (Samples.world_with Samples.tick 0%nat) = Returned bs w' ∧
    length bs = 3%nat ∧
    calls w' = [] ++ replicate 3 (1%positive, []) ∧
    app w' = Nat.iter 3 (λ σ, state_after (Samples.tick [] σ)) 0%nat.
Proof.
  destruct (matches_calls_creator_each_time
              (Samples.world_with Samples.tick 0%nat) 1%positive Samples.tick
              ∅ eq_refl) as [Honce Heach].
  split.
  - apply (Honce Samples.decrement).
  - apply (Heach (λ σ, ex_intro _ _ (ex_intro _ _ eq_refl))
             [Samples.decrement; Samples.increment_5;
              Samples.increment_bare]).
Defined.

(** C7, as the claim has it, fails: on the action creator [increment] at
    address 1, [createMaction] returns address 1 itself, and the function
    object at that address has gained the property [matches]. *)
Lemma createMaction_returns_its_argument_modified :
  ¬ Index.returns_new_value
      (Samples.world_with (Samples.increment (S := ())) ()) 1%positive ∧
  ¬ Index.leaves_input_unmodified
      (Samples.world_with (Samples.increment (S := ())) ()) 1%positive.
Proof.
  pose proof (createMaction_runs
    (Samples.world_with (Samples.increment (S := ())) ()) 1%positive _
    eq_refl) as Hrun.
  split; intros Hclaim.
  - by apply (Hclaim _ _ Hrun).
  - specialize (Hclaim _ _ Hrun).
    apply (f_equal (λ o, o ≫= λ x, fprops x !! "matches")) in Hclaim.
    vm_compute in Hclaim. discriminate.
Qed.

(** C7, amended. [createMaction(c)] returns [c] itself, the same function
    object and not a new one. It sets the property [matches] of [c] to a newly
    created arrow function closed over [c], and leaves alone what [c] does
    when called, the other properties of [c], every other function object
    that was there, the application state and the record of calls. *)
Theorem createMaction_extends_in_place {S : Type} (w : world S) (c : loc)
    (f : ActionCreatorFn S) (ps : gmap string value) :
  heap w !! c = Some (FObj (ActionCreator f) ps) →
  ∃ k w',
    Index.createMaction c w = Returned c w' ∧
    heap w !! k = None ∧
    heap w' !! c = Some (FObj (ActionCreator f) (<["matches" := VFun k]> ps)) ∧
    heap w' !! k = Some (FObj (MatchesArrow c) ∅) ∧
    (∀ l, l ≠ c → l ≠ k → heap w' !! l = heap w !! l) ∧
    app w' = app w ∧ calls w' = calls w.
Proof.
  intros Hc. pose proof (fresh_not_allocated w c _ Hc) as Hk.
  exists (fresh (dom (heap w))). eexists.
  split; [by apply createMaction_runs|]. simpl.
  split; [apply not_elem_of_dom, is_fresh|].
  split; [by rewrite lookup_insert_eq|].
  split; [rewrite lookup_insert_ne by done; by rewrite lookup_insert_eq|].
  split; [intros l Hl1 Hl2; by rewrite !lookup_insert_ne|].
  done.
Qed.

Lemma createMaction_extends_in_place_witness :
  ∃ k w',
    Index.createMaction 1%positive
      (Samples.world_with Samples.increment ()) = Returned 1%positive w' ∧
    heap (Samples.world_with (Samples.increment (S := ())) ()) !! k = None ∧
    heap w' !! 1%positive =
      Some (FObj (ActionCreator Samples.increment)
                 (<["matches" := VFun k]> ∅)) ∧
    heap w' !! k = Some (FObj (MatchesArrow 1%positive) ∅) ∧
    (∀ l, l ≠ 1%positive → l ≠ k →
       heap w' !! l =
       heap (Samples.world_with (Samples.increment (S := ())) ()) !! l) ∧
    app w' = () ∧ calls w' = [].
Proof.
  apply (createMaction_extends_in_place
           (Samples.world_with Samples.increment ()) 1%positive
           Samples.increment ∅).
  reflexivity.
Defined.

(** C8. For every action creator [c] and candidates [a] and [b] with the same
    [type], [createMaction(c).matches(a)] and [createMaction(c).matches(b)]
    end alike: no field of the candidate other than [type] is looked at. *)
Theorem matches_depends_on_type_only {S : Type} (w : world S) (c : loc)
    (a b : AnyAction) :
  get_field a "type" = get_field b "type" →
  Index.createMaction_matches c a w = Index.createMaction_matches c b w.
Proof.
  intros Hab. unfold Index.createMaction_matches, bind.
  destruct (Index.createMaction c w) as [m w1| |]; try done.
  by apply call_matches_reads_type_only.
Qed.

Lemma matches_depends_on_type_only_witness :
  Index.createMaction_matches 1%positive Samples.increment_5
    (Samples.world_with Samples.increment ()) =
  Index.createMaction_matches 1%positive Samples.increment_bare
    (Samples.world_with Samples.increment ()).
Proof.
  apply (matches_depends_on_type_only
           (Samples.world_with Samples.increment ()) 1%positive
           Samples.increment_5 Samples.increment_bare).
  reflexivity.
Defined.

(** C9. The older variant and the current one agree on all inputs:
    [withPrefix] with [createPrefix], [maction] with [createMaction], their
    [matches] with each other, and [matchedReducerFactory().reduceForAction]
    with the function that [matchableReducerFactory()] returns. *)
Theorem variants_agree {S State : Type} :
  (∀ p s, Part000.withPrefix p s = Index.createPrefix p s) ∧
  (∀ c (w : world S), Part000.maction c w = Index.createMaction c w) ∧
  (∀ c a (w : world S), Part000.matches c a w = Index.matches c a w) ∧
  (∀ c a (w : world S),
     Part000.maction_matches c a w = Index.createMaction_matches c a w) ∧
  (∀ m (fn : SecondaryReducer S State),
     Part000.reduceForAction (Part000.matchedReducerFactory ()) m fn =
     Index.matchableReducerFactory () m fn).
Proof.
  split; [apply withPrefix_createPrefix|].
  split; [apply maction_createMaction|].
  split; [apply old_matches_new_matches|].
  split; [apply maction_matches_createMaction_matches|].
  intros m fn. reflexivity.
Qed.

(** C10. Prefixing respects concatenation, with the empty string as the
    prefix that changes nothing: [createPrefix(p)(createPrefix(q)(s))] is
    [createPrefix(p + q)(s)], and [createPrefix("")(s)] is [s]. *)
Theorem createPrefix_homomorphism (p q s : string) :
  Index.createPrefix p (Index.createPrefix q s) =
    Index.createPrefix (p +:+ q) s ∧
  Index.createPrefix "" s = s.
Proof.
  unfold Index.createPrefix. rewrite !template_pair.
  split; [by rewrite append_assoc | reflexivity].
Qed.

(** ** The scenarios of the specification *)

Example prefix_scenario :
  Index.createPrefix "COUNTER_" "INCREMENT" = "COUNTER_INCREMENT".
Proof. reflexivity. Qed.

Example matches_scenario :
  visible (Index.createMaction_matches 1%positive Samples.increment_5
             (Samples.world_with Samples.increment ())) =
    Some (inl true, (), [(1%positive, [])]) ∧
  visible (Index.createMaction_matches 1%positive Samples.decrement
             (Samples.world_with Samples.increment ())) =
    Some (inl false, (), [(1%positive, [])]).
Proof. split; vm_compute; reflexivity. Qed.

Example reducer_scenario :
  Index.matchableReducerFactory () 1%positive Samples.add_amount 10%Z
    Samples.increment_5 () = Normal 15%Z ().
Proof. vm_compute. reflexivity. Qed.

(** * Further properties *)

(** ** Prefixes as namespaces *)

Lemma append_eq_same_length (p q s t : string) :
  String.length p = String.length q →
  p +:+ s = q +:+ t → p = q ∧ s = t.
Proof.
  revert q. induction p as [|a p IH]; intros [|b q] Hlen Heq;
    try discriminate.
  - done.
  - rewrite !append_cons in Heq. injection Heq as -> Heq.
    injection Hlen as Hlen. destruct (IH q Hlen Heq) as [-> ->]. done.
Qed.

Lemma substring_all (s : string) : String.substring 0 (String.length s) s = s.
Proof. induction s as [|a s IH]; [done | simpl; by rewrite IH]. Qed.

Lemma substring_front (p s : string) :
  String.substring 0 (String.length p) (p +:+ s) = p.
Proof.
  induction p as [|a p IH]; [by destruct s|].
  rewrite append_cons. simpl. by rewrite IH.
Qed.

Lemma substring_back (p s : string) :
  String.substring (String.length p) (String.length s) (p +:+ s) = s.
Proof.
  induction p as [|a p IH]; [apply substring_all|].
  rewrite append_cons. simpl. apply IH.
Qed.

Lemma prefix_iff_append (p q : string) :
  String.prefix p q = true ↔ ∃ r, q = p +:+ r.
Proof.
  revert q. induction p as [|a p IH]; intros q.
  - split; [intros _; exists q; reflexivity | intros _; by destruct q].
  - destruct q as [|b q]; simpl.
    + split; [discriminate | intros [r Hr]; discriminate].
    + destruct (Ascii.ascii_dec a b) as [->|Hab].
      * rewrite IH. split; intros [r Hr]; exists r.
        -- by rewrite append_cons, Hr.
        -- rewrite append_cons in Hr. by injection Hr.
      * split; [discriminate|]. intros [r Hr].
        rewrite append_cons in Hr. injection Hr as Hba _. by destruct Hab.
Qed.

Lemma append_overlap (p q s t : string) :
  p +:+ s = q +:+ t → String.prefix p q = true ∨ String.prefix q p = true.
Proof.
  revert q. induction p as [|a p IH]; intros q Heq.
  - left. by destruct q.
  - destruct q as [|b q]; [by right|].
    rewrite !append_cons in Heq. injection Heq as -> Heq.
    simpl. destruct (Ascii.ascii_dec b b) as [_|Hb]; [|by destruct Hb].
    by apply IH.
Qed.

(** X1. Under prefixes of one length, a prefixed action type determines both
    its prefix and its label; in particular one prefix never sends two labels
    to the same action type. *)
Theorem createPrefix_determines_parts (p q s t : string) :
  String.length p = String.length q →
  Index.createPrefix p s = Index.createPrefix q t → p = q ∧ s = t.
Proof.
  unfold Index.createPrefix. rewrite !template_pair.
  apply append_eq_same_length.
Qed.

Lemma createPrefix_determines_parts_witness :
  ("COUNTER_" : string) = "COUNTER_" ∧ ("INCREMENT" : string) = "INCREMENT".
Proof.
  apply (createPrefix_determines_parts
           "COUNTER_" "COUNTER_" "INCREMENT" "INCREMENT").
  - reflexivity.
  - reflexivity.
Defined.

(** X2. A prefixed action type can be taken apart again: its first
    [length p] characters are the prefix and the rest is the label, both
    unchanged. *)
Theorem createPrefix_round_trip (p s : string) :
  String.substring 0 (String.length p) (Index.createPrefix p s) = p ∧
  String.substring (String.length p) (String.length s)
    (Index.createPrefix p s) = s.
Proof.
  unfold Index.createPrefix. rewrite template_pair.
  split; [apply substring_front | apply substring_back].
Qed.

(** X3. Two prefixes can produce one and the same action type, for some pair
    of labels, exactly when one of them is a prefix of the other: prefixes
    that do not overlap in this way keep their action types apart, and
    prefixes that do overlap do not. *)
Theorem createPrefix_collides_iff (p q : string) :
  (∃ s t, Index.createPrefix p s = Index.createPrefix q t) ↔
  String.prefix p q = true ∨ String.prefix q p = true.
Proof.
  unfold Index.createPrefix. split.
  - intros (s & t & Heq). rewrite !template_pair in Heq.
    by apply (append_overlap p q s t).
  - intros [Hpq|Hqp].
    + apply prefix_iff_append in Hpq as [r ->].
      exists r, "". by rewrite !template_pair, append_empty_r.
    + apply prefix_iff_append in Hqp as [r ->].
      exists "", r. by rewrite !template_pair, append_empty_r.
Qed.

(** ** Matchable action creators in a store that changes *)

Section Store.

Context {S : Type}.
Implicit Types (w : world S) (f g : ActionCreatorFn S) (c m : loc).
Implicit Types (a : AnyAction).

(** [createMaction], with what it leaves of the store as it was. *)
Lemma createMaction_frame w c f ps :
  heap w !! c = Some (FObj (ActionCreator f) ps) →
  ∃ w1, Index.createMaction c w = Returned c w1 ∧
        app w1 = app w ∧ calls w1 = calls w ∧ is_maction w1 c f ∧
        ∀ l o, l ≠ c → heap w !! l = Some o → heap w1 !! l = Some o.
Proof.
  intros Hc.
  destruct (createMaction_is_maction w c f ps Hc)
    as (w1 & Hrun & Happ & Hcalls & Hm).
  exists w1. repeat (split; [done|]).
  intros l o Hl Hlo.
  rewrite (createMaction_runs w c _ Hc) in Hrun. injection Hrun as <-.
  simpl. rewrite lookup_insert_ne by done.
  rewrite lookup_insert_ne; [done|].
  intros <-. by rewrite (not_elem_of_dom_1 _ _ (is_fresh (dom (heap w)))) in Hlo.
Qed.

Lemma is_maction_kept w w1 m f c g ps :
  is_maction w m f →
  heap w !! c = Some (FObj (ActionCreator g) ps) →
  m ≠ c →
  (∀ l o, l ≠ c → heap w !! l = Some o → heap w1 !! l = Some o) →
  is_maction w1 m f.
Proof.
  intros (qs & k & rs & Hm & Hqs & Hk) Hc Hmc Hkeep.
  exists qs, k, rs. split; [by apply Hkeep|]. split; [done|].
  apply Hkeep; [|done]. intros ->. congruence.
Qed.

Lemma call_creator_runs w c f ps (xs : list value) :
  heap w !! c = Some (FObj (ActionCreator f) ps) →
  call_creator c xs w =
    match f xs (app w) with
    | Normal r σ => Returned r (World σ (heap w) (calls w ++ [(c, xs)]))
    | Throw e σ => Thrown e (World σ (heap w) (calls w ++ [(c, xs)]))
    end.
Proof.
  intros Hc. unfold call_creator. run. rewrite Hc. simpl.
  by destruct (f xs (app w)).
Qed.

(** [m1.matches(m2(...xs))] with both creators wrapped. *)
Lemma cross_matches_runs w (c1 c2 : loc) (f1 f2 : ActionCreatorFn S)
    (ps1 ps2 : gmap string value) (xs : list value) a (σ1 : S)
    (r : AnyAction) (σ2 : S) :
  c1 ≠ c2 →
  heap w !! c1 = Some (FObj (ActionCreator f1) ps1) →
  heap w !! c2 = Some (FObj (ActionCreator f2) ps2) →
  f2 xs (app w) = Normal a σ1 →
  f1 [] σ1 = Normal r σ2 →
  ∃ w',
    Programs.cross_matches c1 c2 xs w =
      Returned (strict_eq (get_field a "type") (get_field r "type")) w' ∧
    app w' = σ2 ∧ calls w' = calls w ++ [(c2, xs); (c1, [])].
Proof.
  intros Hne Hc1 Hc2 Ha Hr.
  destruct (createMaction_frame w c1 f1 ps1 Hc1)
    as (w1 & Hrun1 & Happ1 & Hcalls1 & Hm1 & Hkeep1).
  pose proof (Hkeep1 c2 _ (not_eq_sym Hne) Hc2) as Hc2'.
  destruct (createMaction_frame w1 c2 f2 ps2 Hc2')
    as (w2 & Hrun2 & Happ2 & Hcalls2 & Hm2 & Hkeep2).
  pose proof (is_maction_kept w1 w2 c1 f1 c2 f2 ps2 Hm1 Hc2' Hne Hkeep2)
    as Hm.
  destruct Hm2 as (qs & k & rs & Hc2'' & _ & _).
  unfold Programs.cross_matches, bind.
  rewrite Hrun1, Hrun2, (call_creator_runs w2 c2 f2 qs xs Hc2'').
  rewrite Happ2, Happ1, Ha.
  set (w3 := World σ1 (heap w2) (calls w2 ++ [(c2, xs)])).
  assert (is_maction w3 c1 f1) as Hm3 by (by apply (is_maction_heap w2)).
  rewrite (matches_of_maction w3 c1 f1 a Hm3). simpl. rewrite Hr.
  eexists. split; [reflexivity|]. simpl. split; [done|].
  by rewrite Hcalls2, Hcalls1, <- app_assoc.
Qed.

End Store.

(** X4. Wherever [m] is a matchable action creator, whatever has happened
    since it was wrapped, [m.matches(a)] calls the creator once with no
    arguments in the state of that moment, compares [a.type] with the [type]
    of what comes back, and leaves [m] a matchable action creator. *)
Theorem matches_at_any_time {S : Type} (w : world S) (m : loc)
    (f : ActionCreatorFn S) (a : AnyAction) :
  is_maction w m f →
  ∃ w',
    call_matches Index.matches m a w =
      match f [] (app w) with
      | Normal r _ =>
          Returned (strict_eq (get_field a "type") (get_field r "type")) w'
      | Throw e _ => Thrown e w'
      end ∧
    app w' = state_after (f [] (app w)) ∧
    calls w' = calls w ++ [(m, [])] ∧
    is_maction w' m f.
Proof.
  intros Hm. rewrite (matches_of_maction w m f a Hm).
  destruct (f [] (app w)) as [r σ|e σ]; eexists;
    (split; [reflexivity|]); simpl; repeat (split; [done|]);
    by apply (is_maction_heap w).
Qed.

Lemma matches_at_any_time_witness :
  ∃ w',
    call_matches Index.matches 1%positive Samples.decrement
      Samples.ticking_world =
      match Samples.tick [] (app Samples.ticking_world) with
      | Normal r _ =>
          Returned (strict_eq (get_field Samples.decrement "type")
                              (get_field r "type")) w'
      | Throw e _ => Thrown e w'
      end ∧
    app w' = state_after (Samples.tick [] (app Samples.ticking_world)) ∧
    calls w' = calls Samples.ticking_world ++ [(1%positive, [])] ∧
    is_maction w' 1%positive Samples.tick.
Proof.
  apply (matches_at_any_time Samples.ticking_world 1%positive Samples.tick
           Samples.decrement).
  exists {[ "matches" := VFun 2%positive ]}, 2%positive, ∅.
  split; [reflexivity|]. split; reflexivity.
Defined.

(** X5. Wrapping an action creator that is wrapped already changes nothing a
    caller can see: [createMaction(createMaction(c)).matches(a)] ends as
    [createMaction(c).matches(a)] does, after one call of [c]. *)
Theorem createMaction_twice {S : Type} (w : world S) (c : loc)
    (f : ActionCreatorFn S) (ps : gmap string value) (a : AnyAction) :
  heap w !! c = Some (FObj (ActionCreator f) ps) →
  visible (Programs.wrap_twice_matches c a w) =
    visible (Index.createMaction_matches c a w) ∧
  visible (Programs.wrap_twice_matches c a w) =
    Some (match f [] (app w) with
          | Normal r σ =>
              (inl (strict_eq (get_field a "type") (get_field r "type")),
               σ, calls w ++ [(c, [])])
          | Throw e σ => (inr e, σ, calls w ++ [(c, [])])
          end).
Proof.
  intros Hc.
  destruct (createMaction_matches_runs w c f ps a Hc) as [h ->].
  destruct (createMaction_is_maction w c f ps Hc)
    as (w1 & Hrun1 & Happ1 & Hcalls1 & (qs & k & rs & Hc1 & _ & _)).
  destruct (createMaction_is_maction w1 c f qs Hc1)
    as (w2 & Hrun2 & Happ2 & Hcalls2 & Hm2).
  unfold Programs.wrap_twice_matches, bind.
  rewrite Hrun1, Hrun2, (matches_of_maction w2 c f a Hm2).
  rewrite Happ2, Happ1, Hcalls2, Hcalls1.
  by destruct (f [] (app w)).
Qed.

Lemma createMaction_twice_witness :
  visible (Programs.wrap_twice_matches 1%positive Samples.increment_5
             (Samples.world_with Samples.tick 0%nat)) =
    visible (Index.createMaction_matches 1%positive Samples.increment_5
               (Samples.world_with Samples.tick 0%nat)) ∧
  visible (Programs.wrap_twice_matches 1%positive Samples.increment_5
             (Samples.world_with Samples.tick 0%nat)) =
    Some (match Samples.tick [] 0%nat with
          | Normal r σ =>
              (inl (strict_eq (get_field Samples.increment_5 "type")
                              (get_field r "type")),
               σ, [] ++ [(1%positive, [])])
          | Throw e σ => (inr e, σ, [] ++ [(1%positive, [])])
          end).
Proof.
  apply (createMaction_twice (Samples.world_with Samples.tick 0%nat)
           1%positive Samples.tick ∅ Samples.increment_5).
  reflexivity.
Defined.

(** X6. Wrapping one action creator does not disturb the matcher of another:
    with [c2] wrapped after [c1], [c1.matches(a)] ends as it does when [c2]
    is never wrapped. *)
Theorem createMaction_keeps_other_matchers {S : Type} (w : world S)
    (c1 c2 : loc) (f1 f2 : ActionCreatorFn S) (ps1 ps2 : gmap string value)
    (a : AnyAction) :
  c1 ≠ c2 →
  heap w !! c1 = Some (FObj (ActionCreator f1) ps1) →
  heap w !! c2 = Some (FObj (ActionCreator f2) ps2) →
  visible (Programs.matches_after_other_wrap c1 c2 a w) =
    visible (Index.createMaction_matches c1 a w) ∧
  visible (Programs.matches_after_other_wrap c1 c2 a w) =
    Some (match f1 [] (app w) with
          | Normal r σ =>
              (inl (strict_eq (get_field a "type") (get_field r "type")),
               σ, calls w ++ [(c1, [])])
          | Throw e σ => (inr e, σ, calls w ++ [(c1, [])])
          end).
Proof.
  intros Hne Hc1 Hc2.
  destruct (createMaction_matches_runs w c1 f1 ps1 a Hc1) as [h ->].
  destruct (createMaction_frame w c1 f1 ps1 Hc1)
    as (w1 & Hrun1 & Happ1 & Hcalls1 & Hm1 & Hkeep1).
  pose proof (Hkeep1 c2 _ (not_eq_sym Hne) Hc2) as Hc2'.
  destruct (createMaction_frame w1 c2 f2 ps2 Hc2')
    as (w2 & Hrun2 & Happ2 & Hcalls2 & _ & Hkeep2).
  pose proof (is_maction_kept w1 w2 c1 f1 c2 f2 ps2 Hm1 Hc2' Hne Hkeep2)
    as Hm.
  unfold Programs.matches_after_other_wrap, bind.
  rewrite Hrun1, Hrun2, (matches_of_maction w2 c1 f1 a Hm).
  rewrite Happ2, Happ1, Hcalls2, Hcalls1.
  by destruct (f1 [] (app w)).
Qed.

Lemma createMaction_keeps_other_matchers_witness :
  visible (Programs.matches_after_other_wrap 1%positive 2%positive
             Samples.increment_5
             (Samples.world_with_two Samples.increment Samples.tick 0%nat)) =
    visible (Index.createMaction_matches 1%positive Samples.increment_5
               (Samples.world_with_two Samples.increment Samples.tick 0%nat)) ∧
  visible (Programs.matches_after_other_wrap 1%positive 2%positive
             Samples.increment_5
             (Samples.world_with_two Samples.increment Samples.tick 0%nat)) =
    Some (match Samples.increment [] 0%nat with
          | Normal r σ =>
              (inl (strict_eq (get_field Samples.increment_5 "type")
                              (get_field r "type")),
               σ, [] ++ [(1%positive, [])])
          | Throw e σ => (inr e, σ, [] ++ [(1%positive, [])])
          end).
Proof.
  apply (createMaction_keeps_other_matchers
           (Samples.world_with_two Samples.increment Samples.tick 0%nat)
           1%positive 2%positive Samples.increment Samples.tick ∅ ∅
           Samples.increment_5).
  - discriminate.
  - reflexivity.
  - reflexivity.
Defined.

(** X7. A matcher goes by the [type] alone, not by which creator built the
    action: with two different creators wrapped, whose types are the strings
    [t1] and [t2], the matcher of the first accepts an action built by the
    second exactly when [t1] and [t2] are the same string. *)
Theorem matching_is_by_type {S : Type} (w : world S) (c1 c2 : loc)
    (f1 f2 : ActionCreatorFn S) (ps1 ps2 : gmap string value)
    (t1 t2 : string) (xs : list value) (a : AnyAction) (σ1 : S)
    (r : AnyAction) (σ2 : S) :
  c1 ≠ c2 →
  heap w !! c1 = Some (FObj (ActionCreator f1) ps1) →
  heap w !! c2 = Some (FObj (ActionCreator f2) ps2) →
  (∀ ys σ r' σ', f1 ys σ = Normal r' σ' → get_field r' "type" = VStr t1) →
  (∀ ys σ r' σ', f2 ys σ = Normal r' σ' → get_field r' "type" = VStr t2) →
  f2 xs (app w) = Normal a σ1 →
  f1 [] σ1 = Normal r σ2 →
  ∃ w',
    Programs.cross_matches c1 c2 xs w = Returned (bool_decide (t1 = t2)) w' ∧
    app w' = σ2 ∧ calls w' = calls w ++ [(c2, xs); (c1, [])].
Proof.
  intros Hne Hc1 Hc2 Ht1 Ht2 Ha Hr.
  destruct (cross_matches_runs w c1 c2 f1 f2 ps1 ps2 xs a σ1 r σ2
              Hne Hc1 Hc2 Ha Hr) as (w' & Hrun & Hrest).
  exists w'. split; [|done]. rewrite Hrun.
  rewrite (Ht1 _ _ _ _ Hr), (Ht2 _ _ _ _ Ha), strict_eq_string.
  do 2 f_equal. apply bool_decide_ext. split; congruence.
Qed.

Lemma matching_is_by_type_witness :
  ∃ w',
    Programs.cross_matches 1%positive 2%positive [VNum 5]
      (Samples.world_with_two Samples.increment
         (Samples.prefixed "" "INCREMENT") ()) =
      Returned (bool_decide (("INCREMENT" : string) = "INCREMENT")) w' ∧
    app w' = () ∧
    calls w' = [] ++ [(2%positive, [VNum 5]); (1%positive, [])].
Proof.
  apply (matching_is_by_type
           (Samples.world_with_two Samples.increment
              (Samples.prefixed "" "INCREMENT") ())
           1%positive 2%positive Samples.increment
           (Samples.prefixed "" "INCREMENT") ∅ ∅ "INCREMENT" "INCREMENT"
           [VNum 5] {[ "type" := VStr "INCREMENT" ]} ()
           {[ "type" := VStr "INCREMENT"; "amount" := VUndefined ]} ()).
  - discriminate.
  - reflexivity.
  - reflexivity.
  - intros ys σ r' σ' [= <- _]. reflexivity.
  - intros ys σ r' σ' [= <- _]. reflexivity.
  - reflexivity.
  - reflexivity.
Defined.

(** X8. Action creators whose types are built with [createPrefix] from two
    prefixes, neither of which is a prefix of the other, never match each
    other's actions, whatever the labels. *)
Theorem separate_prefixes_never_match {S : Type} (w : world S) (c1 c2 : loc)
    (f1 f2 : ActionCreatorFn S) (ps1 ps2 : gmap string value)
    (p q s t : string) (xs : list value) (a : AnyAction) (σ1 : S)
    (r : AnyAction) (σ2 : S) :
  String.prefix p q = false →
  String.prefix q p = false →
  c1 ≠ c2 →
  heap w !! c1 = Some (FObj (ActionCreator f1) ps1) →
  heap w !! c2 = Some (FObj (ActionCreator f2) ps2) →
  (∀ ys σ r' σ', f1 ys σ = Normal r' σ' →
     get_field r' "type" = VStr (Index.createPrefix p s)) →
  (∀ ys σ r' σ', f2 ys σ = Normal r' σ' →
     get_field r' "type" = VStr (Index.createPrefix q t)) →
  f2 xs (app w) = Normal a σ1 →
  f1 [] σ1 = Normal r σ2 →
  ∃ w', Programs.cross_matches c1 c2 xs w = Returned false w'.
Proof.
  intros Hpq Hqp Hne Hc1 Hc2 Ht1 Ht2 Ha Hr.
  destruct (cross_matches_runs w c1 c2 f1 f2 ps1 ps2 xs a σ1 r σ2
              Hne Hc1 Hc2 Ha Hr) as (w' & Hrun & _).
  exists w'. rewrite Hrun.
  rewrite (Ht1 _ _ _ _ Hr), (Ht2 _ _ _ _ Ha), strict_eq_string.
  rewrite bool_decide_eq_false_2; [done|].
  intros [= Heq]. unfold Index.createPrefix in Heq.
  rewrite !template_pair in Heq.
  destruct (append_overlap q p t s Heq) as [H|H]; congruence.
Qed.

Lemma separate_prefixes_never_match_witness :
  ∃ w',
    Programs.cross_matches 1%positive 2%positive []
      (Samples.world_with_two (Samples.prefixed "COUNTER_" "RESET")
         (Samples.prefixed "TODO_" "RESET") ()) = Returned false w'.
Proof.
  apply (separate_prefixes_never_match
           (Samples.world_with_two (Samples.prefixed "COUNTER_" "RESET")
              (Samples.prefixed "TODO_" "RESET") ())
           1%positive 2%positive (Samples.prefixed "COUNTER_" "RESET")
           (Samples.prefixed "TODO_" "RESET") ∅ ∅
           "COUNTER_" "TODO_" "RESET" "RESET" []
           {[ "type" := VStr (Index.createPrefix "TODO_" "RESET") ]} ()
           {[ "type" := VStr (Index.createPrefix "COUNTER_" "RESET") ]} ()).
  - reflexivity.
  - reflexivity.
  - discriminate.
  - reflexivity.
  - reflexivity.
  - intros ys σ r' σ' [= <- _]. reflexivity.
  - intros ys σ r' σ' [= <- _]. reflexivity.
  - reflexivity.
  - reflexivity.
Defined.

(** ** The counter of the README *)

Section Counter.

Context {S : Type}.
Variables plus minus : value → value → value.
Implicit Types (w : world S) (f : ActionCreatorFn S).

(** A definition [createMaction(<arrow function>)] adds a matchable action
    creator at an address that was free, and keeps what was there. *)
Lemma define_runs f w :
  ∃ c w1,
    Readme.WithMaction.define f w = Returned c w1 ∧
    app w1 = app w ∧ calls w1 = calls w ∧
    heap w !! c = None ∧ is_maction w1 c f ∧
    ∀ l o, heap w !! l = Some o → heap w1 !! l = Some o.
Proof.
  set (c := fresh (dom (heap w))).
  assert (heap w !! c = None) as Hfree
    by apply not_elem_of_dom, is_fresh.
  set (w0 := World (app w) (<[c := FObj (ActionCreator f) ∅]> (heap w))
                   (calls w)).
  assert (heap w0 !! c = Some (FObj (ActionCreator f) ∅)) as Hc
    by apply lookup_insert_eq.
  destruct (createMaction_frame w0 c f ∅ Hc)
    as (w1 & Hrun & Happ & Hcalls & Hm & Hkeep).
  exists c, w1. unfold Readme.WithMaction.define, bind, new_function.
  fold c. fold w0. rewrite Hrun. repeat (split; [done|]).
  intros l o Hl. apply Hkeep; [congruence|].
  subst w0. simpl. rewrite lookup_insert_ne; [done | congruence].
Qed.

Lemma is_maction_extended w w1 (m : loc) f :
  is_maction w m f →
  (∀ l o, heap w !! l = Some o → heap w1 !! l = Some o) →
  is_maction w1 m f.
Proof.
  intros (ps & k & qs & Hm & Hps & Hk) Hkeep.
  exists ps, k, qs. auto.
Qed.

(** The three definitions of the README give three matchable action
    creators and touch nothing else. *)
Lemma actions_run w :
  ∃ inc dec reset w1,
    Readme.WithMaction.actions w = Returned (inc, dec, reset) w1 ∧
    app w1 = app w ∧ calls w1 = calls w ∧
    is_maction w1 inc Readme.incrementAction ∧
    is_maction w1 dec Readme.decrementAction ∧
    is_maction w1 reset Readme.resetAction.
Proof.
  destruct (define_runs Readme.incrementAction w)
    as (inc & w1 & Hrun1 & Happ1 & Hcalls1 & _ & Hinc & _).
  destruct (define_runs Readme.decrementAction w1)
    as (dec & w2 & Hrun2 & Happ2 & Hcalls2 & _ & Hdec & Hkeep2).
  destruct (define_runs Readme.resetAction w2)
    as (reset & w3 & Hrun3 & Happ3 & Hcalls3 & _ & Hreset & Hkeep3).
  exists inc, dec, reset, w3.
  unfold Readme.WithMaction.actions, bind. rewrite Hrun1, Hrun2, Hrun3.
  split; [done|]. split; [congruence|]. split; [congruence|].
  split; [|split; [|done]].
  - apply (is_maction_extended w2); [|done].
    by apply (is_maction_extended w1).
  - by apply (is_maction_extended w2).
Qed.

(** The reducer of the README on a store that holds its three matchers. *)
Lemma reducer_runs w (inc dec reset : loc) (state : Readme.State)
    (action : AnyAction) :
  is_maction w inc Readme.incrementAction →
  is_maction w dec Readme.decrementAction →
  is_maction w reset Readme.resetAction →
  Readme.WithMaction.reducer plus minus inc dec reset state action w =
    Returned (Readme.reduced plus minus state action)
      (World (app w) (heap w)
         (calls w ++
          take (Readme.tried action) [(inc, []); (dec, []); (reset, [])])).
Proof.
  intros Hinc Hdec Hreset.
  unfold Readme.WithMaction.reducer, Readme.reduced, Readme.tried.
  unfold bind at 1. rewrite (matches_of_maction w inc _ action Hinc).
  cbn [Readme.incrementAction].
  change (get_field _ "type") with (VStr "INCREMENT") at 2.
  rewrite strict_eq_string.
  destruct (bool_decide (get_field action "type" = VStr "INCREMENT")).
  { done. }
  set (w1 := World (app w) (heap w) (calls w ++ [(inc, [])])).
  assert (is_maction w1 dec Readme.decrementAction) as Hdec1
    by (by apply (is_maction_heap w)).
  assert (is_maction w1 reset Readme.resetAction) as Hreset1
    by (by apply (is_maction_heap w)).
  unfold bind at 1. rewrite (matches_of_maction w1 dec _ action Hdec1).
  cbn [Readme.decrementAction].
  change (get_field _ "type") with (VStr "DECREMENT") at 2.
  rewrite strict_eq_string.
  destruct (bool_decide (get_field action "type" = VStr "DECREMENT")).
  { unfold lift. simpl. by rewrite <- app_assoc. }
  set (w2 := World (app w1) (heap w1) (calls w1 ++ [(dec, [])])).
  assert (is_maction w2 reset Readme.resetAction) as Hreset2
    by (by apply (is_maction_heap w1)).
  unfold bind at 1. rewrite (matches_of_maction w2 reset _ action Hreset2).
  cbn [Readme.resetAction].
  change (get_field _ "type") with (VStr "RESET") at 2.
  rewrite strict_eq_string.
  destruct (bool_decide (get_field action "type" = VStr "RESET"));
    unfold ret; simpl; by rewrite <- !app_assoc.
Qed.

Lemma dispatch_runs w (state : Readme.State) (action : AnyAction) :
  ∃ inc dec reset w',
    Readme.WithMaction.dispatch plus minus state action w =
      Returned (Readme.reduced plus minus state action) w' ∧
    app w' = app w ∧
    calls w' =
      calls w ++
      take (Readme.tried action) [(inc, []); (dec, []); (reset, [])].
Proof.
  destruct (actions_run w)
    as (inc & dec & reset & w1 & Hrun & Happ & Hcalls & Hinc & Hdec & Hreset).
  exists inc, dec, reset. eexists.
  unfold Readme.WithMaction.dispatch, bind. rewrite Hrun.
  rewrite (reducer_runs w1 inc dec reset state action Hinc Hdec Hreset).
  split; [reflexivity|]. simpl. by rewrite Happ, Hcalls.
Qed.

End Counter.


(** X10. The two reducers of the README, the one with a [switch] and the one
    with matchers, return the same state for every action whose [type] is
    not ["DECREMENT"]. On a [DECREMENT] action they part: the one with
    matchers subtracts, the one with the [switch], whose [DECREMENT] case
    falls through to [RESET], sets [value] to 0. *)
Theorem readme_reducers_compared {S : Type}
    (plus minus : value → value → value) (w : world S)
    (state : Readme.State) (action : AnyAction) :
  ∃ st w',
    Readme.WithMaction.dispatch plus minus state action w = Returned st w' ∧
    app w' = app w ∧
    (get_field action "type" ≠ VStr "DECREMENT" →
     Readme.WithSwitch.reducer plus state action (app w) =
       Normal st (app w)) ∧
    (get_field action "type" = VStr "DECREMENT" →
     st = <["value" := minus (get_field state "value")
                             (get_field action "value")]> state ∧
     Readme.WithSwitch.reducer plus state action (app w) =
       Normal (<["value" := VNum 0]> state) (app w)).
Proof.
  destruct (dispatch_runs plus minus w state action)
    as (inc & dec & reset & w' & Hrun & Happ & _).
  exists (Readme.reduced plus minus state action), w'.
  split; [done|]. split; [done|].
  unfold Readme.reduced, Readme.WithSwitch.reducer,
    Readme.WithSwitch.incrementReducer, Readme.add_value.
  rewrite !strict_eq_string.
  split.
  - intros Hne. repeat case_bool_decide; simpl; congruence.
  - intros Heq. rewrite Heq.
    repeat case_bool_decide; simpl; try congruence; done.
Qed.

Example readme_decrement :
  visible (Readme.WithMaction.dispatch Readme.plus_int Readme.minus_int
             {[ "value" := VNum 10 ]}
             {[ "type" := VStr "DECREMENT"; "value" := VNum 3 ]}
             (World () ∅ [])) =
    Some (inl {[ "value" := VNum 7 ]}, (),
          [(1%positive, []); (3%positive, [])]) ∧
  Readme.WithSwitch.reducer Readme.plus_int
    {[ "value" := VNum 10 ]}
    {[ "type" := VStr "DECREMENT"; "value" := VNum 3 ]} () =
    Normal {[ "value" := VNum 0 ]} ().
Proof. split; vm_compute; reflexivity. Qed.
